(** * VietPhrase translator: a shallow embedding of [src/main.py]

    The development follows the class [ChineseVietnameseTranslator]:
    the lexicon loader [load_dict_from_file], the name pre-pass and the
    greedy longest-match loop of [trans_vp], and the facade [translate].

    Python strings are sequences of Unicode code points, so a string is a
    list of code points here; a Python [dict] with string keys is a [gmap]
    from the key's code points to the value's. *)

From Stdlib Require Import NArith String Ascii.
From stdpp Require Import gmap list sorting strings.

Local Open Scope N_scope.

(** ** Characters and strings *)

Module Py.

(** A character is its Unicode code point. *)
Abbreviation char := N.
Abbreviation str := (list N).

(** Literals: the UTF-8 bytes of a Rocq string literal are decoded to the
    code points a Python source literal denotes. *)
Definition cont (b : N) : N := N.land b 63.

Fixpoint decode (bs : list N) : str :=
  match bs with
  | [] => []
  | b :: r =>
      if b <? 128 then b :: decode r
      else if b <? 224 then
        match r with
        | b1 :: r1 => (N.land b 31 * 64 + cont b1) :: decode r1
        | _ => []
        end
      else if b <? 240 then
        match r with
        | b1 :: b2 :: r2 =>
            (N.land b 15 * 4096 + cont b1 * 64 + cont b2) :: decode r2
        | _ => []
        end
      else
        match r with
        | b1 :: b2 :: b3 :: r3 =>
            (N.land b 7 * 262144 + cont b1 * 4096 + cont b2 * 64 + cont b3)
              :: decode r3
        | _ => []
        end
  end.

Fixpoint bytes (s : string) : list N :=
  match s with
  | EmptyString => []
  | String a r => N_of_ascii a :: bytes r
  end.

Definition u (s : string) : str := decode (bytes s).

(** [str.isspace] for a single character: the code points Python treats
    as whitespace, which are the ones [str.strip()] removes. *)
Definition isspace (c : char) : bool :=
  ((9 <=? c) && (c <=? 13)) || ((28 <=? c) && (c <=? 32))
  || (c =? 133) || (c =? 160) || (c =? 5760)
  || ((8192 <=? c) && (c <=? 8202))
  || (c =? 8232) || (c =? 8233) || (c =? 8239) || (c =? 8287)
  || (c =? 12288).

(** [s.lstrip()], [s.rstrip()] and [s.strip()]. *)
Fixpoint lstrip (s : str) : str :=
  match s with
  | c :: r => if isspace c then lstrip r else s
  | [] => []
  end.

Definition rstrip (s : str) : str := reverse (lstrip (reverse s)).

Definition strip (s : str) : str := rstrip (lstrip s).

(** [s.startswith(p)]. *)
Fixpoint startswith (s p : str) {struct p} : bool :=
  match p with
  | [] => true
  | a :: p' =>
      match s with
      | [] => false
      | b :: s' => (a =? b) && startswith s' p'
      end
  end.

(** [s[i:i+j]] for in-range or out-of-range [i], [j]. *)
Definition slice (s : str) (i j : nat) : str := take j (drop i s).

(** [s.split(sep, 1)] for a non-empty one-character separator: the list
    holds the whole string when [sep] does not occur, and otherwise the
    parts before and after its first occurrence. *)
Fixpoint split1 (sep : char) (s : str) : list str :=
  match s with
  | [] => [ [] ]
  | c :: r =>
      if c =? sep then [ []; r ]
      else match split1 sep r with
           | a :: rest => (c :: a) :: rest
           | [] => []
           end
  end.

(** [s.split(sep)[0]] for a non-empty separator: the part of [s] before the
    first occurrence of [sep], all of [s] when there is none. *)
Fixpoint split_head (sep s : str) : str :=
  match s with
  | [] => []
  | c :: r => if startswith s sep then [] else c :: split_head sep r
  end.

(** [s.replace(old, new)]: every occurrence of [old], found left to right
    and not overlapping, becomes [new].  [skip] counts the characters of a
    matched occurrence still to be passed over.  An empty [old] matches
    between all characters and at both ends. *)
Fixpoint replace_from (old new : str) (skip : nat) (s : str) : str :=
  match s with
  | [] => []
  | c :: r =>
      match skip with
      | S k => replace_from old new k r
      | O =>
          if startswith s old
          then new ++ replace_from old new (pred (length old)) r
          else c :: replace_from old new O r
      end
  end.

Definition replace (old new s : str) : str :=
  match old with
  | [] => new ++ flat_map (fun c => c :: new) s
  | _ :: _ => replace_from old new O s
  end.

(** [re.sub(r' +', ' ', s)]: each maximal run of U+0020 becomes one. *)
Fixpoint collapse_spaces (s : str) : str :=
  match s with
  | [] => []
  | c :: r =>
      if c =? 32 then
        match r with
        | d :: _ => if d =? 32 then collapse_spaces r else c :: collapse_spaces r
        | [] => [c]
        end
      else c :: collapse_spaces r
  end.

End Py.

Import Py.


(** ** Exceptions and outcomes *)

(** The exceptions the modelled code can raise. *)
Inductive exn :=
| FileNotFoundError
| UnicodeDecodeError
| KeyError (k : str)
| ValueError.

(** What running a method gives: a value, an exception, or no answer
    within the iterations allowed to a loop. *)
Inductive outcome (A : Type) :=
| Ok (a : A)
| Raise (e : exn)
| Diverge.
Arguments Ok {A} a.
Arguments Raise {A} e.
Arguments Diverge {A}.

Global Instance outcome_bind : MBind outcome := fun A B k m =>
  match m with
  | Ok a => k a
  | Raise e => Raise e
  | Diverge => Diverge
  end.

(** ** The translator object *)

Record options := Options {
  Ngoac : bool;     (* wrap a phrase translation in brackets *)
  Motnghia : bool;  (* keep the first meaning only *)
  daucach : str;    (* separator between meanings *)
  DichLieu : bool   (* drop the particles *)
}.

Record translator := Translator {
  opts : options;
  dict_pa : gmap str str;
  dict_vp : gmap str str;
  dict_names : gmap str str;
  dict_vp_keys : list str;
  dict_names_keys : list str
}.

(** [__init__] before [load_default_dictionaries] runs. *)
Definition init : translator :=
  {| opts := {| Ngoac := false; Motnghia := true; daucach := u "/";
                DichLieu := true |};
     dict_pa := ∅; dict_vp := ∅; dict_names := ∅;
     dict_vp_keys := []; dict_names_keys := [] |}.

(** ** Sorting keys: [sorted(d.keys(), key=lambda x: (-len(x), x))] *)

(** [a <= b] on strings, by code points, a proper prefix being smaller. *)
Fixpoint str_leb (a b : str) : bool :=
  match a, b with
  | [], _ => true
  | _ :: _, [] => false
  | x :: a', y :: b' => (x <? y) || ((x =? y) && str_leb a' b')
  end.

(** [(-len(a), a) <= (-len(b), b)] on the tuples the sort key builds. *)
Definition key_leb (a b : str) : bool :=
  (length b <? length a)%nat
  || ((length a =? length b)%nat && str_leb a b).

Definition key_le (a b : str) : Prop := key_leb a b = true.

Global Instance key_le_dec a b : Decision (key_le a b).
Proof. unfold key_le. apply _. Defined.

(** The keys of a dict; the sort key is injective, so the order in which
    the dict yields them does not show in the sorted list. *)
Definition keys (d : gmap str str) : list str := (map_to_list d).*1.

Definition sorted_keys (d : gmap str str) : list str :=
  merge_sort key_le (keys d).

(** ** Loading a lexicon: [load_dict_from_file] *)

(** What iterating over the open file yields: a decoded line (with its
    line end), or a decoding error, which ends the iteration. *)
Inductive read :=
| Line (line : str)
| BadBytes.

Global Instance read_eq_dec : EqDecision read.
Proof. solve_decision. Defined.

(** What [open(file_path, 'r', encoding='utf-8')] finds. *)
Inductive source :=
| Missing
| Opened (reads : list read).

(** [not line or line.startswith(('//', '#', '='))]. *)
Definition ignored (line : str) : bool :=
  bool_decide (line = []) || startswith line (u "//")
  || startswith line (u "#") || startswith line (u "=").

(** The body of [for line in f]: the dict [result] after one line. *)
Definition parse_line (result : gmap str str) (line : str) : gmap str str :=
  let line := strip line in
  if ignored line then result
  else
    let parts := split1 61 line in
    if negb (length parts =? 2)%nat then result
    else match parts with
         | [key; value] => <[key := strip value]> result
         | _ => result
         end.

Fixpoint read_lines (result : gmap str str) (f : list read)
  : outcome (gmap str str) :=
  match f with
  | [] => Ok result
  | BadBytes :: _ => Raise UnicodeDecodeError
  | Line line :: f' => read_lines (parse_line result line) f'
  end.

(** The [with open(...)] block. *)
Definition read_dict (src : source) : outcome (gmap str str) :=
  match src with
  | Missing => Raise FileNotFoundError
  | Opened f => read_lines ∅ f
  end.

(** The assignments after the loop, by [dict_type]. *)
Definition store (t : translator) (dict_type : string)
    (result : gmap str str) : translator :=
  if String.eqb dict_type "vp" then
    {| opts := opts t; dict_pa := dict_pa t; dict_vp := result;
       dict_names := dict_names t;
       dict_vp_keys := sorted_keys result;
       dict_names_keys := dict_names_keys t |}
  else if String.eqb dict_type "pa" then
    {| opts := opts t; dict_pa := result; dict_vp := dict_vp t;
       dict_names := dict_names t;
       dict_vp_keys := dict_vp_keys t;
       dict_names_keys := dict_names_keys t |}
  else if String.eqb dict_type "names" then
    {| opts := opts t; dict_pa := dict_pa t; dict_vp := dict_vp t;
       dict_names := result;
       dict_vp_keys := dict_vp_keys t;
       dict_names_keys := sorted_keys result |}
  else t.

(** [load_dict_from_file]: the [try] block, and the [except] that turns
    every exception into [False] and leaves the object as it was. *)
Definition load_dict_from_file (t : translator) (src : source)
    (dict_type : string) : translator * bool :=
  match read_dict src with
  | Ok result => (store t dict_type result, true)
  | _ => (t, false)
  end.

(** [load_default_dictionaries]: the three files, as found in the
    directory [fs], and the three flags it logs. *)
Definition load_default_dictionaries (t : translator)
    (fs : string -> source) : translator * (bool * bool * bool) :=
  let '(t1, pa_success) :=
    load_dict_from_file t (fs "ChinesePhienAmWords.txt"%string) "pa" in
  let '(t2, vp_success) :=
    load_dict_from_file t1 (fs "vietphrase.txt"%string) "vp" in
  let '(t3, names_success) :=
    load_dict_from_file t2 (fs "Names.txt"%string) "names" in
  (t3, (pa_success, vp_success, names_success)).

(** The constructor: [__init__]. *)
Definition new (fs : string -> source) : translator :=
  (load_default_dictionaries init fs).1.

(** ** Phonetic transliteration: [trans_pa] *)

Fixpoint trans_pa_from (t : translator) (result text : str) : str :=
  match text with
  | [] => result
  | c :: text' =>
      match dict_pa t !! [c] with
      | Some p => trans_pa_from t (result ++ 32 :: p) text'
      | None => trans_pa_from t (result ++ [c]) text'
      end
  end.

Definition trans_pa (t : translator) (text : str) : str :=
  trans_pa_from t [] text.

(** ** Translation: [trans_vp] *)

(** [not d] for a dict. *)
Definition is_empty (d : gmap str str) : bool := bool_decide (d = ∅).

(** The name pre-pass: [for name in self.dict_names_keys], each pass
    rewriting the text the previous one left. *)
Fixpoint replace_names (names : gmap str str) (name_keys : list str)
    (text : str) : outcome str :=
  match name_keys with
  | [] => Ok text
  | name :: rest =>
      match names !! name with
      | Some v => replace_names names rest (replace name (32 :: v) text)
      | None => Raise (KeyError name)
      end
  end.

Definition name_pass (t : translator) (text : str) : outcome str :=
  if negb (is_empty (dict_names t))
     && negb (bool_decide (dict_names_keys t = []))
  then replace_names (dict_names t) (dict_names_keys t) text
  else Ok text.

(** [len(self.dict_vp_keys[0]) if self.dict_vp_keys else 0]. *)
Definition max_length (t : translator) : nat :=
  match dict_vp_keys t with
  | k :: _ => length k
  | [] => O
  end.

(** The particles U+7684, U+4E86 and U+7740. *)
Definition particles : list char := [30340; 20102; 30528].

(** [dichlieu]: the particles to drop, by the option. *)
Definition dichlieu (t : translator) : list char :=
  if DichLieu (opts t) then particles else [].

(** The options applied to a phrase's value. *)
Definition render (o : options) (vp : str) : outcome str :=
  vp1 ← (if Motnghia o
         then match daucach o with
              | [] => Raise ValueError
              | _ :: _ => Ok (split_head (daucach o) vp)
              end
         else Ok vp);
  Ok (if Ngoac o then u "[" ++ strip vp1 ++ u "]" else vp1).

(** [for j in range(max_length, 0, -1)] from [j] down: the length and the
    value of the first key found at position [i], if any. *)
Fixpoint scan (t : translator) (text : str) (i j : nat)
  : option (nat * str) :=
  match j with
  | O => None
  | S j' =>
      if (length text <? i + j)%nat then scan t text i j'
      else match dict_vp t !! slice text i j with
           | Some vp => Some (j, vp)
           | None => scan t text i j'
           end
  end.

(** What one iteration of the [while] loop does to [i] and [result]. *)
Inductive control :=
| Next (i : nat) (result : str)
| Break (result : str).

Definition body (t : translator) (text : str) (i : nat) (result : str)
  : outcome control :=
  match scan t text i (max_length t) with
  | Some (j, vp) =>
      vp' ← render (opts t) vp;
      Ok (Next (i + j) (result ++ 32 :: vp'))
  | None =>
      match text !! i with
      | Some c =>
          if bool_decide (c ∈ dichlieu t) then Ok (Next (S i) result)
          else match dict_pa t !! [c] with
               | Some p => Ok (Next (S i) (result ++ 32 :: p))
               | None => Ok (Next (S i) (result ++ [c]))
               end
      | None => Ok (Break result)
      end
  end.

(** [while i < len(text)], allowed [fuel] iterations. *)
Fixpoint while (t : translator) (text : str) (fuel i : nat) (result : str)
  : outcome str :=
  if (i <? length text)%nat then
    match fuel with
    | O => Diverge
    | S fuel' =>
        c ← body t text i result;
        match c with
        | Next i' result' => while t text fuel' i' result'
        | Break result' => Ok result'
        end
    end
  else Ok result.

(** The main loop and the clean-up of its result; the loop is given one
    iteration per character of the text it scans. *)
Definition segment (t : translator) (text : str) : outcome str :=
  result ← while t text (length text) O [];
  Ok (strip (collapse_spaces result)).

(** [trans_vp]: the guard, the name pre-pass, then the main loop on the
    text the pre-pass left. *)
Definition trans_vp (t : translator) (text : str) : outcome str :=
  if is_empty (dict_vp t) || is_empty (dict_pa t) then Ok text
  else
    text ← name_pass t text;
    segment t text.

Definition translate (t : translator) (text : str) : outcome str :=
  trans_vp t text.

(** ** Running the code on the spec's scenarios *)

Definition lines (ls : list string) : source :=
  Opened (map (fun l => Line (u l ++ [10])) ls).

Definition fs_of (pa vp names : source) (name : string) : source :=
  if String.eqb name "ChinesePhienAmWords.txt" then pa
  else if String.eqb name "vietphrase.txt" then vp
  else if String.eqb name "Names.txt" then names
  else Missing.

Definition t_nihao : translator :=
  new (fs_of (lines ["你=nỉ"; "好=hảo"]%string) (lines ["你好=xin chào"]%string) Missing).

(** The same lexicons with a name lexicon. *)
Definition t_names : translator :=
  new (fs_of (lines ["你=nỉ"; "好=hảo"]%string)
         (lines ["你好=xin chào"]%string) (lines ["李明=Lý Minh"]%string)).

(** A phrase lexicon that translates a particle. *)
Definition t_particle : translator :=
  new (fs_of (lines ["你=nỉ"]%string) (lines ["的=đích"]%string) Missing).

(** No phrase file. *)
Definition t_no_phrase : translator :=
  new (fs_of (lines ["你=nỉ"; "好=hảo"]%string) Missing Missing).




(** ** The invariant of a translator object *)

(** What [__init__] establishes and every load keeps: each key list is the
    sorted key list of its dict, and no key is empty. *)
Record wf (t : translator) : Prop := {
  wf_vp_keys : dict_vp_keys t = sorted_keys (dict_vp t);
  wf_names_keys : dict_names_keys t = sorted_keys (dict_names t);
  wf_names_nonempty : dict_names t !! [] = None
}.

(** ** The option set: [set_option] and the [/options] handler *)

(** [self.options] is a dict from option names to values.  [set_option]
    never looks at the value it stores, so the type [V] of values is left
    open. *)
Definition set_option {V : Type} (options : gmap string V) (name : string)
    (value : V) : gmap string V * bool :=
  if bool_decide (is_Some (options !! name))
  then (<[name := value]> options, true)
  else (options, false).

(** The loop of the [POST /options] handler over [request.options.items()]:
    the options after it and its [success] flag. *)
Fixpoint set_options {V : Type} (options : gmap string V)
    (items : list (string * V)) (success : bool) : gmap string V * bool :=
  match items with
  | [] => (options, success)
  | (key, value) :: rest =>
      let '(options', ok) := set_option options key value in
      set_options options' rest (if negb ok then false else success)
  end.

(** The values [__init__] puts in [self.options]: booleans and a string. *)
Inductive value :=
| VBool (b : bool)
| VStr (s : str).

Definition default_options : gmap string value :=
  <["Ngoac"%string := VBool false]>
    (<["Motnghia"%string := VBool true]>
       (<["daucach"%string := VStr (u "/")]>
          {["DichLieu"%string := VBool true]})).

(** The options [trans_vp] reads, when each has the type [__init__] gave
    it. *)
Definition typed_options (d : gmap string value) : option options :=
  match d !! "Ngoac"%string, d !! "Motnghia"%string, d !! "daucach"%string,
        d !! "DichLieu"%string with
  | Some (VBool n), Some (VBool m), Some (VStr s), Some (VBool l) =>
      Some {| Ngoac := n; Motnghia := m; daucach := s; DichLieu := l |}
  | _, _, _, _ => None
  end.

(** ** Status: [get_dictionary_status] *)

Record status := Status {
  pa_dict : nat;
  vp_dict : nat;
  names_dict : nat
}.

Definition get_dictionary_status (t : translator) : status :=
  {| pa_dict := size (dict_pa t);
     vp_dict := size (dict_vp t);
     names_dict := size (dict_names t) |}.

(** ** Notions the properties are stated with *)

(** What [trans_pa] appends for one character. *)
Definition pa_char (t : translator) (c : char) : str :=
  match dict_pa t !! [c] with
  | Some p => 32 :: p
  | None => [c]
  end.

(** The number of lines read from a file. *)
Definition line_count (src : source) : nat :=
  match src with
  | Missing => O
  | Opened f => length f
  end.

(** A key as a lexicon file can hold it: not empty, without '=', and not
    starting with whitespace or a comment marker. *)
Definition key_ok (k : str) : Prop :=
  k ≠ [] ∧ (61 ∉ k) ∧ lstrip k = k ∧ ignored k = false.

(** A value as the loader stores it: nothing left to strip. *)
Definition stripped (v : str) : Prop := strip v = v.


(** The longest key is first, and lengths never grow along the list. *)
Definition longest_first (l : list str) : Prop :=
  StronglySorted (λ a b, (length b ≤ length a)%nat) l.

(** The keys of the three lexicons. *)
Definition lexicon_keys (t : translator) : list str :=
  keys (dict_vp t) ++ keys (dict_pa t) ++ keys (dict_names t).

(** No character of [text] occurs in any key of any lexicon. *)
Definition foreign (t : translator) (text : str) : Prop :=
  Forall (λ c, Forall (λ k : str, c ∉ k) (lexicon_keys t)) text.

(** A string made of particles only. *)
Definition all_particles (s : str) : Prop := Forall (λ c, c ∈ particles) s.

(** The normalization as the pass-through property words it: runs of
    spaces collapsed, then leading and trailing spaces (U+0020) trimmed. *)
Fixpoint ltrim_spaces (s : str) : str :=
  match s with
  | c :: r => if c =? 32 then ltrim_spaces r else s
  | [] => []
  end.

Definition trim_spaces (s : str) : str :=
  reverse (ltrim_spaces (reverse (ltrim_spaces s))).

Definition normalized (s : str) : str := trim_spaces (collapse_spaces s).

(** [old] occurs in [s]. *)
Definition occurs (old s : str) : Prop := ∃ a b, s = a ++ old ++ b.

(** The pre-pass as one left fold over the keys and their values. *)
Definition rewrite_with (text : str) (kv : str * str) : str :=
  replace kv.1 (32 :: kv.2) text.

(** What the loop appends for a character no phrase starts at. *)
Definition emit (t : translator) (c : char) : str :=
  if bool_decide (c ∈ dichlieu t) then []
  else match dict_pa t !! [c] with
       | Some p => 32 :: p
       | None => [c]
       end.


(** * Properties *)

(** ** Strings *)

Section strings.
Implicit Types (s p old new : str) (c : char).

Lemma startswith_prefix s p : startswith s p = true ↔ ∃ r, s = p ++ r.
Proof.
  revert s; induction p as [|a p IH]; intros s; simpl.
  - split; [intros _; by eexists | done].
  - destruct s as [|b s]; simpl.
    + split; [done | intros [r Hr]; discriminate].
    + rewrite andb_true_iff, N.eqb_eq, IH. split.
      * intros [-> [r ->]]. eauto.
      * intros [r Hr]. injection Hr as -> ->. eauto.
Qed.

Lemma startswith_app p r : startswith (p ++ r) p = true.
Proof. apply startswith_prefix. eauto. Qed.

Lemma startswith_head c s a p :
  startswith (c :: s) (a :: p) = true → a = c.
Proof. simpl. rewrite andb_true_iff, N.eqb_eq. tauto. Qed.

Lemma lstrip_elem_of c s : c ∈ lstrip s → c ∈ s.
Proof.
  induction s as [|d s IH]; simpl; [done|].
  destruct (isspace d); [|done]. intros H. apply elem_of_cons. auto.
Qed.

Lemma strip_elem_of c s : c ∈ strip s → c ∈ s.
Proof.
  unfold strip, rstrip. rewrite elem_of_reverse. intros H.
  apply lstrip_elem_of in H. rewrite elem_of_reverse in H.
  by apply lstrip_elem_of.
Qed.
End strings.

(** ** The sorted key lists *)

Section sorting.
Implicit Types (a b k : str) (d : gmap str str).

Lemma str_leb_total a b : str_leb a b = true ∨ str_leb b a = true.
Proof.
  revert b; induction a as [|x a IH]; intros [|y b]; simpl; auto.
  destruct (N.ltb_spec x y), (N.ltb_spec y x), (N.eqb_spec x y),
    (N.eqb_spec y x); simpl; auto; lia.
Qed.

Global Instance key_le_total : Total key_le.
Proof.
  intros a b. unfold key_le, key_leb.
  destruct (Nat.ltb_spec (length b) (length a)),
    (Nat.ltb_spec (length a) (length b)),
    (Nat.eqb_spec (length a) (length b)),
    (Nat.eqb_spec (length b) (length a)); simpl; auto; try lia.
  apply str_leb_total.
Qed.

Lemma key_le_length a b : key_le a b → (length b ≤ length a)%nat.
Proof.
  unfold key_le, key_leb.
  destruct (Nat.ltb_spec (length b) (length a)),
    (Nat.eqb_spec (length a) (length b)); simpl; intros; try done; lia.
Qed.

Lemma elem_of_keys d k : k ∈ keys d ↔ is_Some (d !! k).
Proof.
  unfold keys. rewrite list_elem_of_fmap. split.
  - intros [[k' v] [-> H]]. apply elem_of_map_to_list in H. by eexists.
  - intros [v H]. exists (k, v). split; [done|].
    by apply elem_of_map_to_list.
Qed.

Lemma elem_of_sorted_keys d k : k ∈ sorted_keys d ↔ is_Some (d !! k).
Proof.
  unfold sorted_keys. rewrite merge_sort_Permutation. apply elem_of_keys.
Qed.

Lemma sorted_keys_longest_first d : longest_first (sorted_keys d).
Proof.
  unfold longest_first, sorted_keys.
  apply Sorted_StronglySorted; [intros a b c ??; lia|].
  pose proof (Sorted_merge_sort key_le (keys d)) as H.
  induction H as [|a l Hl IH Ha]; constructor; [done|].
  destruct Ha; constructor. by apply key_le_length.
Qed.

Lemma sorted_keys_NoDup d : NoDup (sorted_keys d).
Proof.
  unfold sorted_keys, keys. rewrite merge_sort_Permutation.
  apply NoDup_fst_map_to_list.
Qed.

Lemma sorted_keys_empty : sorted_keys ∅ = [].
Proof. reflexivity. Qed.

Lemma sorted_keys_nil d : sorted_keys d = [] ↔ d = ∅.
Proof.
  split; [|intros ->; apply sorted_keys_empty].
  intros H. apply map_empty. intros k.
  apply eq_None_not_Some. rewrite <- elem_of_sorted_keys, H.
  apply not_elem_of_nil.
Qed.

End sorting.

(** ** The loader *)

Section loader.
Implicit Types (s a b key line : str) (result : gmap str str).

Lemma split1_no_sep sep s : sep ∉ s → split1 sep s = [s].
Proof.
  induction s as [|c s IH]; simpl; [done|].
  rewrite not_elem_of_cons. intros [Hc Hs].
  destruct (N.eqb_spec c sep); [congruence|]. by rewrite IH.
Qed.

Lemma split1_sep sep a b : sep ∉ a → split1 sep (a ++ sep :: b) = [a; b].
Proof.
  induction a as [|c a IH]; simpl.
  - by rewrite N.eqb_refl.
  - rewrite not_elem_of_cons. intros [Hc Ha].
    destruct (N.eqb_spec c sep); [congruence|]. by rewrite IH.
Qed.

(** A string splits as the part before the first separator and the part
    after it, or has no separator. *)
Lemma split1_cases sep s :
  ((sep ∉ s) ∧ split1 sep s = [s])
  ∨ (∃ a b, s = a ++ sep :: b ∧ (sep ∉ a) ∧ split1 sep s = [a; b]).
Proof.
  induction s as [|c s IH]; simpl.
  - left. split; [apply not_elem_of_nil | done].
  - destruct (N.eqb_spec c sep) as [->|Hc].
    + right. exists [], s. split_and!; try done. apply not_elem_of_nil.
    + destruct IH as [[Hs ->]|(a & b & -> & Ha & ->)].
      * left. split; [|done]. rewrite not_elem_of_cons. split; congruence.
      * right. exists (c :: a), b.
        split_and!; try done. rewrite not_elem_of_cons. split; congruence.
Qed.

Lemma ignored_sep b : ignored (61 :: b) = true.
Proof.
  unfold ignored. change (startswith (61 :: b) (u "=")) with true.
  by rewrite !orb_true_r.
Qed.

(** A line that is kept and has a separator adds one entry, and
    overwrites the entry its key had. *)
Lemma parse_line_insert result line key b :
  strip line = key ++ 61 :: b → 61 ∉ key → ignored (strip line) = false →
  parse_line result line = <[key := strip b]> result.
Proof.
  intros Hs Hk Hi. unfold parse_line. rewrite Hi, Hs.
  by rewrite (split1_sep _ _ _ Hk).
Qed.

(** A line without a separator adds nothing. *)
Lemma parse_line_no_sep result line :
  61 ∉ line → parse_line result line = result.
Proof.
  intros H. unfold parse_line. destruct (ignored (strip line)); [done|].
  rewrite split1_no_sep; [done|]. intros Hs. by apply H, strip_elem_of.
Qed.

(** What one line does, in every case. *)
Lemma parse_line_cases result line :
  parse_line result line = result
  ∨ ∃ key b, strip line = key ++ 61 :: b ∧ (61 ∉ key) ∧ key ≠ []
      ∧ parse_line result line = <[key := strip b]> result.
Proof.
  unfold parse_line. destruct (ignored (strip line)) eqn:Hi; [by left|].
  destruct (split1_cases 61 (strip line))
    as [[_ ->]|(a & b & Hs & Ha & ->)]; [by left|].
  right. exists a, b. split_and!; [done..| |done].
  intros ->. rewrite Hs in Hi. simpl in Hi. by rewrite ignored_sep in Hi.
Qed.

Lemma parse_line_nonempty result line :
  result !! [] = None → parse_line result line !! [] = None.
Proof.
  intros H.
  destruct (parse_line_cases result line)
    as [->|(key & b & _ & _ & Hk & ->)]; [done|].
  by rewrite lookup_insert_ne.
Qed.

Lemma read_lines_nonempty result f m :
  result !! [] = None → read_lines result f = Ok m → m !! [] = None.
Proof.
  revert result; induction f as [|[line|] f IH]; intros result H; simpl.
  - by intros [= <-].
  - apply IH. by apply parse_line_nonempty.
  - done.
Qed.

Lemma read_dict_nonempty src m : read_dict src = Ok m → m !! [] = None.
Proof.
  destruct src as [|f]; simpl; [done|].
  by apply read_lines_nonempty.
Qed.

(** Reading goes wrong exactly when the file cannot be decoded. *)
Lemma read_lines_app result f1 f2 :
  read_lines result (f1 ++ f2)
  = result' ← read_lines result f1; read_lines result' f2.
Proof.
  revert result; induction f1 as [|[line|] f1 IH]; intros result; simpl;
    [done | apply IH | done].
Qed.



Lemma read_lines_never_diverges result f : read_lines result f ≠ Diverge.
Proof.
  revert result; induction f as [|[line|] f IH]; intros result; simpl;
    [done | apply IH | done].
Qed.
End loader.

(** ** The invariant holds of every translator built by the code *)

Section invariant.
Lemma wf_init : wf init.
Proof. by split. Qed.

Lemma wf_store t dict_type result :
  wf t → result !! [] = None → wf (store t dict_type result).
Proof.
  intros [H1 H2 H3] Hr. unfold store.
  repeat case_match; by split.
Qed.

Lemma wf_load_dict_from_file t src dict_type :
  wf t → wf (load_dict_from_file t src dict_type).1.
Proof.
  intros Hwf. unfold load_dict_from_file.
  destruct (read_dict src) as [m| |] eqn:Hm; simpl; [|done..].
  apply wf_store; [done|]. by eapply read_dict_nonempty.
Qed.

Lemma wf_load_default_dictionaries t fs :
  wf t → wf (load_default_dictionaries t fs).1.
Proof.
  intros Hwf. unfold load_default_dictionaries.
  pose proof (wf_load_dict_from_file t (fs "ChinesePhienAmWords.txt"%string)
                "pa" Hwf) as H1.
  destruct (load_dict_from_file t _ "pa") as [t1 b1]; simpl in H1.
  pose proof (wf_load_dict_from_file t1 (fs "vietphrase.txt"%string)
                "vp" H1) as H2.
  destruct (load_dict_from_file t1 _ "vp") as [t2 b2]; simpl in H2.
  pose proof (wf_load_dict_from_file t2 (fs "Names.txt"%string)
                "names" H2) as H3.
  by destruct (load_dict_from_file t2 _ "names") as [t3 b3].
Qed.

Lemma wf_new fs : wf (new fs).
Proof. apply wf_load_default_dictionaries, wf_init. Qed.
End invariant.

(** ** [str.replace] *)

Section replace.
Implicit Types (s a b old new : str) (c : char).

Lemma occurs_cons old c s : occurs old s → occurs old (c :: s).
Proof. intros (a & b & ->). by exists (c :: a), b. Qed.

Lemma occurs_startswith old s : startswith s old = true → occurs old s.
Proof. intros [r ->]%startswith_prefix. by exists [], r. Qed.

Lemma occurs_elem_of old s c : occurs old s → c ∈ old → c ∈ s.
Proof. intros (a & b & ->) H. rewrite !elem_of_app. auto. Qed.

Lemma replace_from_skip old new a s :
  replace_from old new (length a) (a ++ s) = replace_from old new O s.
Proof. induction a as [|c a IH]; simpl; [by destruct s | done]. Qed.

Lemma replace_nil old new : old ≠ [] → replace old new [] = [].
Proof. by destruct old. Qed.

(** An occurrence at the front is replaced, and the scan resumes after
    it. *)
Lemma replace_occurrence old new s :
  old ≠ [] → replace old new (old ++ s) = new ++ replace old new s.
Proof.
  destruct old as [|c old]; [done|]. intros _. unfold replace.
  assert (startswith (c :: old ++ s) (c :: old) = true) as H
    by apply (startswith_app (c :: old) s).
  change ((c :: old) ++ s) with (c :: (old ++ s)).
  cbn [replace_from]. rewrite H.
  cbn [length pred]. by rewrite replace_from_skip.
Qed.

(** Where no occurrence starts, the character is kept. *)
Lemma replace_other old new c s :
  old ≠ [] → startswith (c :: s) old = false →
  replace old new (c :: s) = c :: replace old new s.
Proof.
  destruct old as [|d old]; [done|]. intros _ H. unfold replace.
  cbn [replace_from]. by rewrite H.
Qed.

(** A text in which [old] does not occur is unchanged. *)
Lemma replace_absent old new s :
  old ≠ [] → ¬ occurs old s → replace old new s = s.
Proof.
  intros Hold. induction s as [|c s IH]; intros H.
  - by apply replace_nil.
  - rewrite replace_other; [|done|].
    + f_equal. apply IH. intros Ho. by apply H, occurs_cons.
    + apply not_true_is_false. intros Hs. by apply H, occurs_startswith.
Qed.
End replace.

(** ** The name pre-pass *)

Section names.
Implicit Types (t : translator) (text : str) (names : gmap str str).

Lemma replace_names_foldl names ks text :
  (∀ k, k ∈ ks → is_Some (names !! k)) →
  ∃ vs, Forall2 (λ k v, names !! k = Some v) ks vs
        ∧ replace_names names ks text
          = Ok (foldl rewrite_with text (zip ks vs)).
Proof.
  revert text; induction ks as [|k ks IH]; intros text H; simpl.
  - exists []. by split.
  - destruct (H k) as [v Hv]; [by left|]. rewrite Hv.
    destruct (IH (replace k (32 :: v) text)) as (vs & Hvs & ->).
    { intros k' Hk'. apply H. by right. }
    exists (v :: vs). split; [by constructor | done].
Qed.

Lemma name_pass_empty t text : dict_names t = ∅ → name_pass t text = Ok text.
Proof. intros H. unfold name_pass, is_empty. by rewrite H. Qed.

Lemma name_pass_replace_names t text :
  wf t →
  name_pass t text = replace_names (dict_names t) (dict_names_keys t) text.
Proof.
  intros Hwf. unfold name_pass, is_empty.
  rewrite (wf_names_keys _ Hwf).
  case_bool_decide as Hd; simpl; [by rewrite Hd|].
  case_bool_decide as Hk; simpl; [by rewrite Hk | done].
Qed.

Lemma replace_names_absent names ks text :
  (∀ k, k ∈ ks → is_Some (names !! k) ∧ k ≠ [] ∧ ¬ occurs k text) →
  replace_names names ks text = Ok text.
Proof.
  induction ks as [|k ks IH]; intros H; simpl; [done|].
  destruct (H k) as ([v Hv] & Hk & Ho); [by left|].
  rewrite Hv, replace_absent by done. apply IH.
  intros k' Hk'. apply H. by right.
Qed.

(** Names that do not occur in the text leave it as it is. *)
Lemma name_pass_absent t text :
  wf t → (∀ k, is_Some (dict_names t !! k) → ¬ occurs k text) →
  name_pass t text = Ok text.
Proof.
  intros Hwf H. rewrite name_pass_replace_names by done.
  apply replace_names_absent. intros k Hk.
  rewrite (wf_names_keys _ Hwf), elem_of_sorted_keys in Hk.
  split_and!; [done| |by apply H].
  intros ->. destruct Hk as [v Hv].
  by rewrite (wf_names_nonempty _ Hwf) in Hv.
Qed.

End names.

(** ** The segmentation loop *)

Section segmentation.
Implicit Types (t : translator) (text result k : str) (i j : nat).

Lemma slice_length text i j :
  (i + j ≤ length text)%nat → length (slice text i j) = j.
Proof. intros H. unfold slice. rewrite length_take, length_drop. lia. Qed.

Lemma slice_occurs text i j : occurs (slice text i j) text.
Proof.
  exists (take i text), (drop j (drop i text)). unfold slice.
  by rewrite take_drop, take_drop.
Qed.



Lemma scan_None t text i j :
  scan t text i j = None ↔
  ∀ m, (1 ≤ m ≤ j)%nat → (i + m ≤ length text)%nat →
       dict_vp t !! slice text i m = None.
Proof.
  induction j as [|j IH]; simpl.
  - split; [intros _ m ?; lia | done].
  - destruct (Nat.ltb_spec (length text) (i + S j)) as [Hlen|Hlen].
    + rewrite IH. split; intros H m ??; apply H; lia.
    + destruct (dict_vp t !! slice text i (S j)) as [v|] eqn:Hv.
      * split; [done|]. intros H. rewrite H in Hv by lia. done.
      * rewrite IH. split; intros H m ??.
        -- destruct (decide (m = S j)) as [->|]; [done|]. apply H; lia.
        -- apply H; lia.
Qed.


(** No key occurring in the text: the scan finds nothing anywhere. *)
Lemma scan_absent t text i j :
  (∀ k, is_Some (dict_vp t !! k) → k ≠ [] → ¬ occurs k text) →
  scan t text i j = None.
Proof.
  intros H. apply scan_None. intros m ??.
  apply eq_None_not_Some. intros Hk. eapply H; [done| |apply slice_occurs].
  intros Hnil. apply (f_equal length) in Hnil.
  rewrite slice_length in Hnil by done. simpl in Hnil. lia.
Qed.

Lemma body_no_phrase t text i result c :
  scan t text i (max_length t) = None → text !! i = Some c →
  body t text i result = Ok (Next (S i) (result ++ emit t c)).
Proof.
  intros Hs Hc. unfold body, emit. rewrite Hs, Hc.
  case_bool_decide; [by rewrite app_nil_r|]. by destruct (dict_pa t !! [c]).
Qed.

(** With no phrase anywhere, the loop is a character-by-character map. *)
Lemma while_no_phrase t text fuel i result :
  (∀ i, scan t text i (max_length t) = None) →
  (length text ≤ fuel + i)%nat →
  while t text fuel i result
  = Ok (result ++ flat_map (emit t) (drop i text)).
Proof.
  intros Hs. revert i result.
  induction fuel as [|fuel IH]; intros i result Hlen; simpl.
  - destruct (Nat.ltb_spec i (length text)); [lia|].
    by rewrite drop_ge, app_nil_r by lia.
  - destruct (Nat.ltb_spec i (length text)) as [Hi|Hi].
    + destruct (lookup_lt_is_Some_2 text i Hi) as [c Hc].
      rewrite (body_no_phrase _ _ _ _ c) by done. simpl.
      rewrite IH by lia. rewrite (drop_S _ _ _ Hc). simpl.
      by rewrite app_assoc.
    + by rewrite drop_ge, app_nil_r by lia.
Qed.



End segmentation.

(** * The claims *)

Section claims.
Implicit Types (t : translator) (text result k : str) (i j : nat).

Lemma is_empty_false (d : gmap str str) : d ≠ ∅ → is_empty d = false.
Proof. intros H. unfold is_empty. by rewrite bool_decide_eq_false. Qed.

Lemma is_empty_true (d : gmap str str) : d = ∅ → is_empty d = true.
Proof. intros ->. done. Qed.

(** Past the guard, [trans_vp] is the name pre-pass followed by the main
    loop. *)
Lemma trans_vp_nonempty t text :
  dict_vp t ≠ ∅ → dict_pa t ≠ ∅ →
  trans_vp t text = text' ← name_pass t text; segment t text'.
Proof.
  intros Hvp Hpa. unfold trans_vp.
  by rewrite (is_empty_false _ Hvp), (is_empty_false _ Hpa).
Qed.



(** A translator is determined by its options and its three lexicons. *)
Lemma wf_ext t1 t2 :
  wf t1 → wf t2 → opts t1 = opts t2 → dict_pa t1 = dict_pa t2 →
  dict_vp t1 = dict_vp t2 → dict_names t1 = dict_names t2 → t1 = t2.
Proof.
  intros [H1 H2 _] [H3 H4 _].
  destruct t1, t2; simpl in *. congruence.
Qed.

(** C2: the name pre-pass is the identity without a name lexicon; otherwise
    it is a left fold over the sorted name keys, longest first, each step
    replacing, in the text the previous step left, every occurrence of the
    key by a space and the key's value; [replace] rewrites an occurrence at
    the front and goes on after it, and keeps a character no occurrence
    starts at.  With the name lexicon {"李明": "Lý Minh"} the main loop is
    run on " Lý Minh你好" for the input "李明你好". *)
Theorem C2_name_pass t text :
  (dict_names t = ∅ → name_pass t text = Ok text)
  ∧ (wf t →
     ∃ vs, Forall2 (λ k v, dict_names t !! k = Some v) (dict_names_keys t) vs
           ∧ name_pass t text
             = Ok (foldl rewrite_with text (zip (dict_names_keys t) vs))
           ∧ longest_first (dict_names_keys t)
           ∧ (∀ k, k ∈ dict_names_keys t ↔ is_Some (dict_names t !! k))
           ∧ (dict_vp t ≠ ∅ → dict_pa t ≠ ∅ →
              trans_vp t text
              = segment t (foldl rewrite_with text
                             (zip (dict_names_keys t) vs))))
  ∧ (∀ old new : str, old ≠ [] →
       replace old new [] = []
       ∧ (∀ s, replace old new (old ++ s) = new ++ replace old new s)
       ∧ (∀ c s, startswith (c :: s) old = false →
                 replace old new (c :: s) = c :: replace old new s))
  ∧ (dict_names t_names = {[ u "李明" := u "Lý Minh" ]}
     ∧ name_pass t_names (u "李明你好") = Ok (u " Lý Minh你好")
     ∧ translate t_names (u "李明你好") = segment t_names (u " Lý Minh你好")).
Proof.
  split_and!.
  - apply name_pass_empty.
  - intros Hwf. rewrite name_pass_replace_names by done.
    destruct (replace_names_foldl (dict_names t) (dict_names_keys t) text)
      as (vs & Hvs & Hfold).
    { intros k. by rewrite (wf_names_keys _ Hwf), elem_of_sorted_keys. }
    exists vs. split_and!; [done..| | |].
    + rewrite (wf_names_keys _ Hwf). apply sorted_keys_longest_first.
    + intros k. rewrite (wf_names_keys _ Hwf). apply elem_of_sorted_keys.
    + intros Hvp Hpa. rewrite trans_vp_nonempty by done.
      by rewrite name_pass_replace_names, Hfold by done.
  - intros old new Hold. split_and!.
    + by apply replace_nil.
    + intros s. by apply replace_occurrence.
    + intros c s. by apply replace_other.
  - by vm_compute.
  - by vm_compute.
  - by vm_compute.
Qed.

Lemma C2_name_pass_witness :
  name_pass init (u "李明你好") = Ok (u "李明你好")
  ∧ longest_first (dict_names_keys t_names)
  ∧ replace (u "李明") (u " Lý Minh") (u "李明你好")
    = u " Lý Minh" ++ replace (u "李明") (u " Lý Minh") (u "你好").
Proof.
  split_and!.
  - apply (C2_name_pass init (u "李明你好")). reflexivity.
  - destruct (C2_name_pass t_names []) as (_ & H & _).
    destruct (H (wf_new _)) as (vs & _ & _ & Hl & _). exact Hl.
  - destruct (C2_name_pass init []) as (_ & _ & H & _).
    destruct (H (u "李明") (u " Lý Minh")) as (_ & Ho & _); [by vm_compute|].
    exact (Ho (u "你好")).
Defined.

(** C3, as stated, fails: the translation of "你好吗" has no space before
    the character that is copied through. *)
Lemma C3_counterexample :
  dict_vp t_nihao = {[ u "你好" := u "xin chào" ]}
  ∧ dict_pa t_nihao = <[ u "你" := u "nỉ" ]> {[ u "好" := u "hảo" ]}
  ∧ dict_names t_nihao = ∅
  ∧ opts t_nihao = opts init
  ∧ translate t_nihao (u "你好吗") ≠ Ok (u "xin chào 吗").
Proof. split_and!; by vm_compute. Qed.

(** C3 (amended): with phrase lexicon exactly {"你好": "xin chào"}, phonetic
    lexicon exactly {"你": "nỉ", "好": "hảo"}, no name lexicon and the
    default options, translate("你好吗") returns "xin chào吗": the unmatched
    character follows the phrase's translation with no space between. *)
Theorem C3_scenario t :
  wf t →
  dict_vp t = {[ u "你好" := u "xin chào" ]} →
  dict_pa t = <[ u "你" := u "nỉ" ]> {[ u "好" := u "hảo" ]} →
  dict_names t = ∅ →
  opts t = opts init →
  translate t (u "你好吗") = Ok (u "xin chào吗").
Proof.
  intros Hwf Hvp Hpa Hnames Ho.
  assert (t = t_nihao) as ->; [|by vm_compute].
  apply wf_ext; [done | apply wf_new | rewrite Ho | rewrite Hpa | rewrite Hvp
                | rewrite Hnames]; by vm_compute.
Qed.

Lemma C3_scenario_witness : translate t_nihao (u "你好吗") = Ok (u "xin chào吗").
Proof.
  apply (C3_scenario t_nihao); [apply wf_new | by vm_compute..].
Defined.

Lemma occurs_Forall (P : char → Prop) (old s : str) :
  occurs old s → Forall P s → Forall P old.
Proof.
  intros (a & b & ->). rewrite !Forall_app. tauto.
Qed.

Lemma foreign_absent t text k :
  foreign t text → k ∈ lexicon_keys t → k ≠ [] → ¬ occurs k text.
Proof.
  unfold foreign. rewrite Forall_forall. intros Hf Hk Hne Ho.
  destruct k as [|c k]; [done|].
  assert (c ∈ text) as Hc by (eapply occurs_elem_of; [done | by left]).
  specialize (Hf c Hc). rewrite Forall_forall in Hf.
  apply (Hf _ Hk). by left.
Qed.

Lemma flat_map_emit_foreign t text :
  foreign t text → Forall (λ c, c ∉ dichlieu t) text →
  flat_map (emit t) text = text.
Proof.
  unfold foreign. induction text as [|c text IH]; [done|].
  rewrite !Forall_cons. intros [Hc Hf] [Hd Hp]. simpl.
  rewrite IH by done. unfold emit. rewrite bool_decide_eq_false_2 by done.
  destruct (dict_pa t !! [c]) as [p|] eqn:Hp'; [|done].
  rewrite Forall_forall in Hc. destruct (Hc [c]); [|by left].
  unfold lexicon_keys. rewrite !elem_of_app, !elem_of_keys. eauto.
Qed.

Lemma flat_map_emit_particles t text :
  DichLieu (opts t) = true → all_particles text →
  flat_map (emit t) text = [].
Proof.
  intros Hd. induction 1 as [|c text Hc _ IH]; [done|]. simpl.
  rewrite IH, app_nil_r. unfold emit, dichlieu. rewrite Hd.
  by rewrite bool_decide_eq_true_2.
Qed.

Lemma segment_no_phrase t text :
  (∀ k, is_Some (dict_vp t !! k) → k ≠ [] → ¬ occurs k text) →
  segment t text = Ok (strip (collapse_spaces (flat_map (emit t) text))).
Proof.
  intros H. unfold segment. rewrite while_no_phrase; [done| |lia].
  intros i. by apply scan_absent.
Qed.

(** C4, as stated, fails: a particle in no lexicon key is dropped, leading
    whitespace other than U+0020 is stripped, and with an empty phrase
    lexicon the text is returned without any normalization. *)
Lemma C4_counterexample :
  (foreign t_nihao (u "的")
   ∧ translate t_nihao (u "的") ≠ Ok (normalized (u "的")))
  ∧ (foreign t_nihao (9 :: u "吗")
     ∧ translate t_nihao (9 :: u "吗") ≠ Ok (normalized (9 :: u "吗")))
  ∧ (foreign t_no_phrase (u "a  b")
     ∧ translate t_no_phrase (u "a  b") ≠ Ok (normalized (u "a  b"))).
Proof.
  unfold foreign. split_and!; try (by vm_compute); compute_done.
Qed.

(** C4 (amended): for a text none of whose characters occurs in a key of
    the phrase, phonetic or name lexicon, translate returns the text itself
    when the phrase or the phonetic lexicon is empty; otherwise, if the
    text also has none of the particles that are being dropped, it returns
    the text with every run of spaces collapsed to one and all leading and
    trailing whitespace stripped. *)
Theorem C4_pass_through t text :
  wf t → foreign t text →
  ((dict_vp t = ∅ ∨ dict_pa t = ∅) → translate t text = Ok text)
  ∧ (dict_vp t ≠ ∅ → dict_pa t ≠ ∅ →
     Forall (λ c, c ∉ dichlieu t) text →
     translate t text = Ok (strip (collapse_spaces text))).
Proof.
  intros Hwf Hf. split.
  - intros H. unfold translate, trans_vp.
    destruct H as [->| ->]; by rewrite ?orb_true_r.
  - intros Hvp Hpa Hd. unfold translate.
    rewrite trans_vp_nonempty by done.
    rewrite name_pass_absent; [simpl|done|].
    + rewrite segment_no_phrase; [by rewrite flat_map_emit_foreign|].
      intros k Hk Hne. apply (foreign_absent t); [done| |done].
      unfold lexicon_keys. rewrite !elem_of_app, !elem_of_keys. auto.
    + intros k Hk. apply (foreign_absent t); [done| |].
      * unfold lexicon_keys. rewrite !elem_of_app, !elem_of_keys. auto.
      * intros ->. destruct Hk as [v Hv].
        by rewrite (wf_names_nonempty _ Hwf) in Hv.
Qed.

Lemma C4_pass_through_witness :
  translate t_no_phrase (u "a  b") = Ok (u "a  b")
  ∧ translate t_nihao (9 :: u " a   b ") = Ok (u "a b").
Proof.
  split.
  - apply (C4_pass_through t_no_phrase (u "a  b")).
    + apply wf_new.
    + unfold foreign. compute_done.
    + left. by vm_compute.
  - apply (C4_pass_through t_nihao (9 :: u " a   b ")).
    + apply wf_new.
    + unfold foreign. compute_done.
    + by vm_compute.
    + by vm_compute.
    + compute_done.
Defined.

(** C5, as stated, fails: a particle that is a phrase key is translated,
    and with empty lexicons the text is returned as it is. *)
Lemma C5_counterexample :
  (DichLieu (opts t_particle) = true ∧ all_particles (u "的")
   ∧ translate t_particle (u "的") = Ok (u "đích")
   ∧ translate t_particle (u "的") ≠ Ok [])
  ∧ (DichLieu (opts init) = true ∧ all_particles (u "的了着")
     ∧ translate init (u "的了着") = Ok (u "的了着")
     ∧ translate init (u "的了着") ≠ Ok []).
Proof.
  unfold all_particles. split_and!; try (by vm_compute); compute_done.
Qed.

(** C5 (amended): with the drop-particles option enabled, non-empty phrase
    and phonetic lexicons, and no phrase or name key made of particles
    only, translate returns the empty string for every text consisting
    solely of the particles 的, 了, 着, and the main loop appends nothing to
    its result for any of them. *)
Theorem C5_particles_dropped t text :
  wf t → DichLieu (opts t) = true → all_particles text →
  dict_vp t ≠ ∅ → dict_pa t ≠ ∅ →
  Forall (λ k, ¬ all_particles k) (keys (dict_vp t) ++ keys (dict_names t)) →
  translate t text = Ok []
  ∧ ∀ result, while t text (length text) O result = Ok result.
Proof.
  intros Hwf Hd Htext Hvp Hpa Hkeys.
  rewrite Forall_forall in Hkeys.
  assert (∀ k, is_Some (dict_vp t !! k) ∨ is_Some (dict_names t !! k) →
               ¬ occurs k text) as Habs.
  { intros k Hk Ho. apply (Hkeys k).
    - rewrite elem_of_app, !elem_of_keys. done.
    - by eapply occurs_Forall. }
  split.
  - unfold translate. rewrite trans_vp_nonempty by done.
    rewrite name_pass_absent; [simpl|done|by auto].
    rewrite segment_no_phrase; [|by auto].
    by rewrite flat_map_emit_particles.
  - intros result. rewrite while_no_phrase; [|by intros; apply scan_absent; auto|lia].
    by rewrite drop_0, flat_map_emit_particles, app_nil_r.
Qed.

Lemma C5_particles_dropped_witness :
  translate t_nihao (u "的了着的") = Ok [].
Proof.
  apply (C5_particles_dropped t_nihao (u "的了着的")).
  - apply wf_new.
  - by vm_compute.
  - unfold all_particles. compute_done.
  - by vm_compute.
  - by vm_compute.
  - unfold all_particles. compute_done.
Defined.

Lemma lstrip_head (s r : str) (c : char) :
  lstrip s = c :: r → isspace c = false.
Proof.
  induction s as [|d s IH]; simpl; [done|].
  destruct (isspace d) eqn:Hd; [done|]. by intros [= <- _].
Qed.

Lemma lstrip_split (s : str) : ∃ w, s = w ++ lstrip s.
Proof.
  induction s as [|d s [w IH]]; simpl; [by exists []|].
  destruct (isspace d); [|by exists []].
  exists (d :: w). simpl. by rewrite <- IH.
Qed.

Lemma rstrip_split (s : str) : ∃ w, s = rstrip s ++ w.
Proof.
  unfold rstrip. destruct (lstrip_split (reverse s)) as [w Hw].
  exists (reverse w). rewrite <- reverse_app, <- Hw.
  by rewrite reverse_involutive.
Qed.

(** A stripped string does not start with whitespace. *)
Lemma strip_head (s r : str) (c : char) :
  strip s = c :: r → isspace c = false.
Proof.
  unfold strip. intros H. destruct (rstrip_split (lstrip s)) as [w Hw].
  rewrite H in Hw. by eapply lstrip_head.
Qed.

(** C6, as stated, fails: the whitespace before the key is not part of the
    key, since the line is stripped before it is split. *)
Lemma C6_counterexample :
  let line := u " a=b" in
  line = u " a" ++ 61 :: u "b"
  ∧ (61 ∉ u " a")
  ∧ ignored (strip line) = false
  ∧ parse_line ∅ line = {[ u "a" := u "b" ]}
  ∧ parse_line ∅ line ≠ {[ u " a" := strip (u "b") ]}.
Proof.
  split_and!; try (by vm_compute). compute_done.
Qed.

(** C6 (amended): a line is first stripped of surrounding whitespace; a
    stripped line that is kept is split at its first '='; the part before
    it is the key, with the whitespace between the key and the '=' but
    never with whitespace in front, and the stripped part after it is the
    value; the entry overwrites an earlier one with the same key, so of
    several lines with one key the last wins. *)
Theorem C6_key_value (result : gmap str str) (line key b : str) :
  strip line = key ++ 61 :: b → 61 ∉ key → ignored (strip line) = false →
  parse_line result line = <[key := strip b]> result
  ∧ (∀ c key', key = c :: key' → isspace c = false)
  ∧ (∀ line' b',
       strip line' = key ++ 61 :: b' → ignored (strip line') = false →
       parse_line (parse_line result line) line' !! key = Some (strip b'))
  ∧ (∀ f m,
       read_lines result f = Ok m →
       read_lines result (f ++ [Line line]) = Ok (<[key := strip b]> m)).
Proof.
  intros Hs Hk Hi. split_and!.
  - by apply parse_line_insert.
  - intros c key' ->. by eapply strip_head.
  - intros line' b' Hs' Hi'.
    rewrite (parse_line_insert _ line' key b') by done.
    apply lookup_insert_eq.
  - intros f m Hm. rewrite read_lines_app, Hm. simpl.
    by rewrite (parse_line_insert _ line key b).
Qed.

Lemma C6_key_value_witness :
  parse_line {[ u "a b " := u "old" ]} (u "  a b =  c=d  " ++ [10])
  = {[ u "a b " := u "c=d" ]}.
Proof.
  destruct (C6_key_value {[ u "a b " := u "old" ]}
              (u "  a b =  c=d  " ++ [10]) (u "a b ") (u "  c=d"))
    as [H _].
  - by vm_compute.
  - compute_done.
  - by vm_compute.
  - rewrite H. by vm_compute.
Defined.







Lemma trans_vp_guard t text :
  dict_vp t = ∅ ∨ dict_pa t = ∅ → trans_vp t text = Ok text.
Proof.
  intros H. unfold trans_vp. by destruct H as [-> | ->]; rewrite ?orb_true_r.
Qed.




(** C9: if the phrase lexicon or the phonetic lexicon is empty, translate
    returns its input as it is, whatever the name lexicon, the options and
    the text are. *)
Theorem C9_empty_lexicon t text :
  dict_vp t = ∅ ∨ dict_pa t = ∅ → translate t text = Ok text.
Proof. apply trans_vp_guard. Qed.

Lemma C9_empty_lexicon_witness :
  let t := new (fs_of (lines ["你=nỉ"]%string) Missing
                  (lines ["李明=Lý Minh"]%string)) in
  dict_names t ≠ ∅
  ∧ translate t (u "  李明  的你 ") = Ok (u "  李明  的你 ").
Proof.
  intros t. split; [by vm_compute|].
  apply (C9_empty_lexicon t). left. by vm_compute.
Defined.

(** C10: a line without '=' adds no entry, and a file with such a line
    loads as the file without it does, with the same flag. *)
Theorem C10_no_separator (result : gmap str str) (line : str)
    (f1 f2 : list read) t (dict_type : string) :
  61 ∉ line →
  parse_line result line = result
  ∧ read_lines result (f1 ++ Line line :: f2) = read_lines result (f1 ++ f2)
  ∧ load_dict_from_file t (Opened (f1 ++ Line line :: f2)) dict_type
    = load_dict_from_file t (Opened (f1 ++ f2)) dict_type.
Proof.
  intros H.
  assert (∀ r, read_lines r (f1 ++ Line line :: f2) = read_lines r (f1 ++ f2))
    as Hr.
  { intros r. rewrite !read_lines_app.
    destruct (read_lines r f1) as [m| |]; simpl; [|done..].
    by rewrite parse_line_no_sep. }
  split_and!; [by apply parse_line_no_sep | done |].
  unfold load_dict_from_file, read_dict. by rewrite Hr.
Qed.

Lemma C10_no_separator_witness :
  load_dict_from_file init (lines ["你=nỉ"; "no separator here"; "好=hảo"]%string)
    "pa"
  = load_dict_from_file init (lines ["你=nỉ"; "好=hảo"]%string) "pa"
  ∧ ignored (strip (u "no separator here" ++ [10])) = false.
Proof.
  split; [|by vm_compute].
  apply (C10_no_separator ∅ (u "no separator here" ++ [10])
           [Line (u "你=nỉ" ++ [10])] [Line (u "好=hảo" ++ [10])] init "pa").
  compute_done.
Defined.

End claims.
